(** * SnapBoost backend ([main_api.py]): prompt routing and result shaping

    A shallow embedding of the FastAPI handlers of [main_api.py].  Python
    strings are sequences of Unicode code points; the Gemini model is an
    external, fallible, stateful collaborator; every handler is a
    computation in a small state-and-exception monad whose state records
    the calls made to the collaborator. *)

From Stdlib Require Import Ascii String.
From stdpp Require Import base numbers option list strings gmap.

Local Open Scope N_scope.

(** ** Python [str] *)

Module PyStr.

(** A [str] is a sequence of code points. *)
Abbreviation codepoint := N (only parsing).
Abbreviation str := (list N) (only parsing).

(** A literal of the source whose characters are all ASCII. *)
Definition lit (s : string) : str := N_of_ascii <$> list_ascii_of_string s.

(** [str.isspace] for one code point: the code points CPython's
    [Py_UNICODE_ISSPACE] accepts, which is what [str.strip()] removes. *)
Definition isspace (c : codepoint) : bool :=
  (9 <=? c) && (c <=? 13) || (28 <=? c) && (c <=? 32)
  || (c =? 0x85) || (c =? 0xA0) || (c =? 0x1680)
  || (0x2000 <=? c) && (c <=? 0x200A)
  || (c =? 0x2028) || (c =? 0x2029) || (c =? 0x202F) || (c =? 0x205F)
  || (c =? 0x3000).

(** [s.lstrip()], [s.rstrip()] and [s.strip()] without argument. *)
Fixpoint lstrip (s : str) : str :=
  match s with
  | [] => []
  | c :: r => if isspace c then lstrip r else s
  end.

Definition rstrip (s : str) : str := rev (lstrip (rev s)).

Definition strip (s : str) : str := rstrip (lstrip s).

(** [hay.startswith(prefix)]. *)
Fixpoint startswith (hay prefix : str) {struct prefix} : bool :=
  match prefix, hay with
  | [], _ => true
  | p :: ps, h :: hs => (p =? h) && startswith hs ps
  | _ :: _, [] => false
  end.

(** [needle in hay]. *)
Fixpoint str_in (needle hay : str) : bool :=
  startswith hay needle ||
  match hay with
  | [] => false
  | _ :: hs => str_in needle hs
  end.

(** *** Case mapping

    [str.lower()] maps every code point to its lower-case image.  On ASCII
    the image is fixed by the language: [A]..[Z] go to [a]..[z] and nothing
    else moves.  Above ASCII the image comes from the Unicode database the
    interpreter was built with; it may be several code points long and, for
    the capital sigma, depends on the neighbours.  That table is not part
    of this repository, so it is a parameter: [tolower_full left c right]
    is the image of the non-ASCII code point [c] standing between [left]
    (nearest code point first) and [right]. *)
Class UnicodeCase := tolower_full : str -> codepoint -> str -> str.

(** What every version of the Unicode database guarantees for code points
    above ASCII: an image is never empty, and the only ASCII code points an
    image can hold are [i] (from U+0130) and [k] (from U+212A). *)
Class UnicodeCaseSound {table : UnicodeCase} : Prop := {
  tolower_full_nonempty : forall left c right,
    128 <= c -> tolower_full left c right <> [];
  tolower_full_ascii : forall left c right x,
    128 <= c -> x ∈ tolower_full left c right -> x < 128 ->
    x = 105 \/ x = 107
}.

Definition ascii_lower (c : codepoint) : codepoint :=
  if (65 <=? c) && (c <=? 90) then c + 32 else c.

Section Lower.
Context {table : UnicodeCase}.

Definition lower_at (left : str) (c : codepoint) (right : str) : str :=
  if c <? 128 then [ascii_lower c] else tolower_full left c right.

Fixpoint lower_from (left s : str) : str :=
  match s with
  | [] => []
  | c :: r => lower_at left c r ++ lower_from (c :: left) r
  end.

(** [s.lower()]. *)
Definition lower (s : str) : str := lower_from [] s.

End Lower.

(** A case table for examples: Latin-1 capitals, the dotted capital I and
    the Kelvin sign; every other code point above ASCII is its own image. *)
Definition sample_case : UnicodeCase := fun _ c _ =>
  if c =? 0x130 then [105; 0x307]
  else if c =? 0x212A then [107]
  else if (0xC0 <=? c) && (c <=? 0xDE) && negb (c =? 0xD7) then [c + 32]
  else [c].

End PyStr.

Import PyStr.

(** ** The generation collaborator and the handler monad *)

(** An exception, seen through the only thing the handlers ever read of
    it: [str(e)].  The handlers catch [Exception], which is what the
    collaborator raises for network, authentication, quota and
    malformed-response failures. *)
Record Exception := { str_of : str }.

Inductive outcome (A : Type) : Type :=
| Return (a : A)
| Raise (e : Exception).
Arguments Return {A} a.
Arguments Raise {A} e.

(** What [generate_content] returns: reading the [text] property gives
    the generated text or raises (a response without any text part). *)
Record GenerateContentResponse := { text : outcome str }.

(** The state of a running process as far as the handlers can tell: the
    shared [gemini_model], whose answer to a prompt may depend on every
    earlier call (the external service is neither deterministic nor
    stateless), and the log of the prompts sent to it so far, oldest
    first. *)
Record World := {
  gemini_model : list str -> str -> outcome GenerateContentResponse;
  calls : list str
}.

Definition M (A : Type) : Type := World -> outcome A * World.

#[global] Instance M_ret : MRet M := fun A a w => (Return a, w).

#[global] Instance M_bind : MBind M := fun A B k m w =>
  match m w with
  | (Return a, w') => k a w'
  | (Raise e, w') => (Raise e, w')
  end.

(** [try: body except Exception as e: handler e]. *)
Definition try_except {A} (body : M A) (handler : Exception -> M A) : M A :=
  fun w =>
    match body w with
    | (Return a, w') => (Return a, w')
    | (Raise e, w') => handler e w'
    end.

(** [gemini_model.generate_content(prompt)]: one outbound call. *)
Definition generate_content (prompt : str) : M GenerateContentResponse :=
  fun w =>
    (gemini_model w (calls w) prompt,
     {| gemini_model := gemini_model w; calls := calls w ++ [prompt] |}).

(** [response.text]. *)
Definition get_text (response : GenerateContentResponse) : M str :=
  fun w => (text response, w).

(** ** Request models and response bodies *)

Module CaptionRequest.
Record t := { event : str; choice : str }.
End CaptionRequest.

Module HashtagRequest.
Record t := { caption : str }.
End HashtagRequest.

Module IdeaRequest.
Record t := { platform : str; niche : str; audience_type : str }.
End IdeaRequest.

Module ScriptInput.
Record t := { video_type : str; topic : str }.
End ScriptInput.

Module ThumbnailPromptRequest.
Record t := { topic : str; style : str; platform : str }.
End ThumbnailPromptRequest.

(** The dict a handler returns, serialised by the framework as the JSON
    body. *)
Abbreviation Body := (gmap string str).

Definition nl : str := [10].
Definition dquote : str := [34].
Definition cross_mark : str := [0x274C].
Definition check_mark : str := [0x2705].

(** ** The handlers *)

Section Handlers.
Context {table : UnicodeCase}.

(** [GET /] *)
Definition root : M Body :=
  mret {[ "message"%string :=
            check_mark ++ lit " SnapBoost AI backend is running!" ]}.

(** [POST /generate-caption/]: the prompt built before the [try]. *)
Definition generate_caption_prompt (request : CaptionRequest.t) : str :=
  let choice := lower (strip (CaptionRequest.choice request)) in
  if decide (choice = lit "caption") then
    lit "Write a short, catchy social media caption for the launch of: "
      ++ CaptionRequest.event request
  else if decide (choice = lit "idea") then
    lit "Give me creative marketing ideas for the launch of: "
      ++ CaptionRequest.event request
  else if decide (choice = lit "launch plan") then
    lit "Create a simple and effective launch plan for: "
      ++ CaptionRequest.event request
  else
    lit "Tell me something helpful related to: "
      ++ CaptionRequest.event request.

Definition generate_caption (request : CaptionRequest.t) : M Body :=
  let prompt := generate_caption_prompt request in
  try_except
    (response ← generate_content prompt;
     t ← get_text response;
     mret {[ "caption"%string := strip t ]})
    (fun e =>
     mret {[ "error"%string :=
               cross_mark ++ lit " Failed to generate caption. Reason: "
                 ++ str_of e ]}).

(** [POST /generate-hashtags/] *)
Definition generate_hashtags_prompt (data : HashtagRequest.t) : str :=
  nl ++ lit "    Generate a list of high-engagement social media hashtags based on the following caption. "
  ++ nl ++ lit "    Avoid spaces and return only the hashtags in Python list format."
  ++ nl ++ lit "    Caption: " ++ HashtagRequest.caption data
  ++ nl ++ lit "    ".

Definition generate_hashtags (data : HashtagRequest.t) : M Body :=
  let prompt := generate_hashtags_prompt data in
  try_except
    (response ← generate_content prompt;
     t ← get_text response;
     mret {[ "hashtags"%string := strip t ]})
    (fun e => mret {[ "error"%string := str_of e ]}).

(** [POST /generate-ideas/] *)
Definition generate_ideas_prompt (data : IdeaRequest.t) : str :=
  nl ++ lit "    You are a creative AI assistant for content creators. Generate 10 unique and viral content ideas for "
  ++ IdeaRequest.platform data ++ lit " creators "
  ++ nl ++ lit "    in the " ++ dquote ++ IdeaRequest.niche data ++ dquote
  ++ lit " niche. Each idea should be engaging, suitable for the "
  ++ IdeaRequest.audience_type data
  ++ lit ", and relevant to current trends."
  ++ nl ++ lit "    Output the ideas as a numbered list."
  ++ nl ++ lit "    ".

Definition generate_ideas (data : IdeaRequest.t) : M Body :=
  let prompt := generate_ideas_prompt data in
  try_except
    (response ← generate_content prompt;
     t ← get_text response;
     mret {[ "ideas"%string := strip t ]})
    (fun e =>
     mret {[ "error"%string :=
               cross_mark ++ lit " Failed to generate ideas. Reason: "
                 ++ str_of e ]}).

(** [POST /generate-script/]: the two templates, as functions of the
    values the f-strings interpolate. *)
Definition short_form (video_type topic : str) : str :=
  nl ++ lit "        Generate an engaging script for a 1-minute "
  ++ video_type ++ lit " about " ++ dquote ++ topic ++ dquote ++ lit "."
  ++ nl ++ lit "        The script should have an attention-grabbing hook in the first few seconds,"
  ++ nl ++ lit "        use a casual and high-energy tone, include visual/action suggestions,"
  ++ nl ++ lit "        and end with a strong call to action."
  ++ nl ++ lit "        ".

Definition long_form (topic : str) : str :=
  nl ++ lit "        Generate a detailed script for a YouTube video about "
  ++ dquote ++ topic ++ dquote ++ lit "."
  ++ nl ++ lit "        The script should last about 10 minutes and include:"
  ++ nl ++ lit "        - Hook in the intro"
  ++ nl ++ lit "        - Structured explanation in sections"
  ++ nl ++ lit "        - Engaging storytelling tone"
  ++ nl ++ lit "        - Visual suggestions for each section"
  ++ nl ++ lit "        - Call to action at the end"
  ++ nl ++ lit "        Format the response as a script with timestamps."
  ++ nl ++ lit "        ".

Definition generate_script_prompt (data : ScriptInput.t) : str :=
  let video_type := lower (strip (ScriptInput.video_type data)) in
  let topic := strip (ScriptInput.topic data) in
  if str_in (lit "short") video_type || str_in (lit "reel") video_type
  then short_form video_type topic
  else long_form topic.

Definition generate_script (data : ScriptInput.t) : M Body :=
  let prompt := generate_script_prompt data in
  try_except
    (response ← generate_content prompt;
     t ← get_text response;
     mret {[ "script"%string := strip t ]})
    (fun e =>
     mret {[ "error"%string :=
               cross_mark
                 ++ lit " Failed to generate script. Please try again later." ]}).

(** [POST /generate-thumbnail-prompt/] *)
Definition generate_thumbnail_prompt_prompt
    (data : ThumbnailPromptRequest.t) : str :=
  lit "Generate a detailed and visually rich prompt for an AI image generator to create a thumbnail for a "
  ++ ThumbnailPromptRequest.platform data ++ lit " video."
  ++ nl ++ lit "Topic: " ++ dquote ++ ThumbnailPromptRequest.topic data ++ dquote
  ++ nl ++ lit "Style: " ++ ThumbnailPromptRequest.style data
  ++ nl ++ lit "Focus on visual details like colors, elements, facial expressions, mood, typography, and composition."
  ++ nl ++ lit "Avoid text in the prompt itself unless required.".

Definition generate_thumbnail_prompt
    (data : ThumbnailPromptRequest.t) : M Body :=
  let prompt := generate_thumbnail_prompt_prompt data in
  try_except
    (response ← generate_content prompt;
     t ← get_text response;
     mret {[ "prompt"%string := strip t ]})
    (fun e => mret {[ "error"%string := str_of e ]}).

(** *** The application: one route per generation endpoint *)

Inductive Request : Type :=
| POST_generate_caption (request : CaptionRequest.t)
| POST_generate_hashtags (data : HashtagRequest.t)
| POST_generate_ideas (data : IdeaRequest.t)
| POST_generate_script (data : ScriptInput.t)
| POST_generate_thumbnail_prompt (data : ThumbnailPromptRequest.t).

Definition app (r : Request) : M Body :=
  match r with
  | POST_generate_caption request => generate_caption request
  | POST_generate_hashtags data => generate_hashtags data
  | POST_generate_ideas data => generate_ideas data
  | POST_generate_script data => generate_script data
  | POST_generate_thumbnail_prompt data => generate_thumbnail_prompt data
  end.

(** The prompt a request is turned into. *)
Definition prompt_of (r : Request) : str :=
  match r with
  | POST_generate_caption request => generate_caption_prompt request
  | POST_generate_hashtags data => generate_hashtags_prompt data
  | POST_generate_ideas data => generate_ideas_prompt data
  | POST_generate_script data => generate_script_prompt data
  | POST_generate_thumbnail_prompt data => generate_thumbnail_prompt_prompt data
  end.

(** The key under which an endpoint returns the generated text. *)
Definition success_field (r : Request) : string :=
  match r with
  | POST_generate_caption _ => "caption"
  | POST_generate_hashtags _ => "hashtags"
  | POST_generate_ideas _ => "ideas"
  | POST_generate_script _ => "script"
  | POST_generate_thumbnail_prompt _ => "prompt"
  end.

End Handlers.

(** The status line the framework sends: 200 when the handler returns a
    body, 500 when an exception leaves the handler. *)
Definition status_code {A} (o : outcome A) : N :=
  match o with
  | Return _ => 200
  | Raise _ => 500
  end.

(** Requests handled one after the other, the bodies in the order of the
    requests.  The handlers are [async def] without any [await], so the
    event loop runs each of them to completion before the next. *)
Fixpoint serve_all {table : UnicodeCase} (rs : list Request)
    : M (list Body) :=
  match rs with
  | [] => mret []
  | r :: rest =>
      body ← app r;
      bodies ← serve_all rest;
      mret (body :: bodies)
  end.

(** ** Vocabulary of the properties *)

(** Equality up to the case of ASCII letters. *)
Definition same_ci (a b : str) : Prop :=
  ascii_lower <$> a = ascii_lower <$> b.

(** [hay] holds [needle] somewhere, up to the case of ASCII letters. *)
Definition contains_ci (needle hay : str) : Prop :=
  exists pre w post, hay = pre ++ w ++ post /\ same_ci w needle.

(** [hay] holds [needle] somewhere, as it is. *)
Definition contains (needle hay : str) : Prop :=
  exists pre post, hay = pre ++ needle ++ post.

(** Code points that only an ASCII code point can lower to. *)
Definition plain (x : codepoint) : Prop := x < 128 /\ x <> 105 /\ x <> 107.

(** The [choice] field is [keyword] inside white space, up to the case of
    ASCII letters. *)
Definition choice_is (keyword choice : str) : Prop :=
  exists ws1 v ws2,
    choice = ws1 ++ v ++ ws2 /\
    Forall (fun c => isspace c = true) ws1 /\
    Forall (fun c => isspace c = true) ws2 /\
    same_ci v keyword.

(** What the [try] block of a handler obtains from the collaborator in
    world [w] for [prompt]: the generated text, or the exception raised
    by the call or by reading the [text] of its response. *)
Definition attempt (w : World) (prompt : str) : outcome str :=
  match gemini_model w (calls w) prompt with
  | Return response => text response
  | Raise e => Raise e
  end.

(** The prompts a computation sends when it is run in world [w]. *)
Definition sent {A} (m : M A) (w : World) : list str :=
  drop (length (calls w)) (calls (m w).2).

(** A collaborator that answers every prompt with [t]. *)
Definition answering (t : str) (log : list str) : World :=
  {| gemini_model := fun _ _ => Return {| text := Return t |};
     calls := log |}.

(** A collaborator whose every call raises an exception saying [msg]. *)
Definition failing (msg : str) (log : list str) : World :=
  {| gemini_model := fun _ _ => Raise {| str_of := msg |};
     calls := log |}.

(** A collaborator that answers, with a response whose [text] cannot be
    read. *)
Definition textless (msg : str) (log : list str) : World :=
  {| gemini_model := fun _ _ => Return {| text := Raise {| str_of := msg |} |};
     calls := log |}.

(** The text of the [error] field an endpoint builds from an exception. *)
Definition error_text (r : Request) (e : Exception) : str :=
  match r with
  | POST_generate_caption _ =>
      cross_mark ++ lit " Failed to generate caption. Reason: " ++ str_of e
  | POST_generate_hashtags _ => str_of e
  | POST_generate_ideas _ =>
      cross_mark ++ lit " Failed to generate ideas. Reason: " ++ str_of e
  | POST_generate_script _ =>
      cross_mark ++ lit " Failed to generate script. Please try again later."
  | POST_generate_thumbnail_prompt _ => str_of e
  end.

(** ** Facts about [str] operations *)

Module PyStrFacts.

Lemma startswith_spec (hay p : str) :
  startswith hay p = true <-> exists post, hay = p ++ post.
Proof.
  revert hay; induction p as [|x p IH]; intros hay; simpl.
  - split; [intros _; by exists hay | done].
  - destruct hay as [|h hay].
    + split; [done | by intros [post Hp]].
    + rewrite andb_true_iff, N.eqb_eq, IH. split.
      * intros [-> [post ->]]. by exists post.
      * intros [post Hp]. injection Hp as -> ->. split; [done | by exists post].
Qed.

Lemma str_in_spec (needle hay : str) :
  str_in needle hay = true <-> contains needle hay.
Proof.
  unfold contains. induction hay as [|h hay IH]; simpl.
  - rewrite orb_false_r, startswith_spec. split.
    + intros [post Hp]. exists [], post. done.
    + intros ([|? ?] & post & Hp); [by exists post | done].
  - rewrite orb_true_iff, startswith_spec, IH. split.
    + intros [[post Hp] | (pre & post & ->)].
      * exists [], post. done.
      * exists (h :: pre), post. done.
    + intros ([|x pre] & post & Hp).
      * left. by exists post.
      * right. injection Hp as -> ->. by exists pre, post.
Qed.

Lemma str_in_false (needle hay : str) :
  str_in needle hay = false <-> ~ contains needle hay.
Proof.
  rewrite <- str_in_spec. by destruct (str_in needle hay).
Qed.

(** *** [strip] *)

Lemma lstrip_spaces (ws s : str) :
  Forall (fun c => isspace c = true) ws -> lstrip (ws ++ s) = lstrip s.
Proof.
  induction 1 as [|c ws Hc _ IH]; [done|]. simpl. by rewrite Hc.
Qed.

Lemma lstrip_keeps (pre : str) (c : codepoint) (rest : str) :
  isspace c = false ->
  exists pre', lstrip (pre ++ c :: rest) = pre' ++ c :: rest.
Proof.
  intros Hc. induction pre as [|x pre IH]; simpl.
  - exists []. by rewrite Hc.
  - destruct (isspace x); [done|]. by exists (x :: pre).
Qed.

Lemma rstrip_spaces (s ws : str) :
  Forall (fun c => isspace c = true) ws -> rstrip (s ++ ws) = rstrip s.
Proof.
  intros Hws. unfold rstrip. rewrite rev_app_distr, lstrip_spaces; [done|].
  by apply Forall_rev.
Qed.

Lemma rstrip_keeps (pre : str) (c : codepoint) (post : str) :
  isspace c = false ->
  exists post', rstrip (pre ++ c :: post) = pre ++ c :: post'.
Proof.
  intros Hc. unfold rstrip.
  replace (rev (pre ++ c :: post)) with (rev post ++ c :: rev pre).
  - destruct (lstrip_keeps (rev post) c (rev pre) Hc) as [p' ->].
    exists (rev p'). rewrite rev_app_distr. simpl.
    by rewrite rev_involutive, <- app_assoc.
  - rewrite rev_app_distr. simpl. by rewrite <- app_assoc.
Qed.

Lemma rstrip_ends (s : str) (c : codepoint) :
  isspace c = false -> rstrip (s ++ [c]) = s ++ [c].
Proof.
  intros Hc. unfold rstrip. rewrite rev_app_distr. simpl. rewrite Hc.
  simpl. by rewrite rev_involutive.
Qed.

(** A word that starts and ends with something else than white space
    comes out of [strip] as it is, whatever white space surrounds it. *)
Lemma strip_surrounded (ws1 ws2 v : str) (c d : codepoint) :
  Forall (fun c => isspace c = true) ws1 ->
  Forall (fun c => isspace c = true) ws2 ->
  head v = Some c -> last v = Some d ->
  isspace c = false -> isspace d = false ->
  strip (ws1 ++ v ++ ws2) = v.
Proof.
  intros H1 H2 Hhd Hlast Hc Hd. unfold strip.
  rewrite lstrip_spaces by done.
  destruct v as [|c' v]; [done|]. injection Hhd as ->.
  simpl. rewrite Hc.
  change (c :: v ++ ws2) with ((c :: v) ++ ws2).
  rewrite rstrip_spaces by done.
  apply last_Some in Hlast as [v' ->]. by apply rstrip_ends.
Qed.

(** [strip] only removes from the two ends. *)
Lemma lstrip_suffix (s : str) : exists ws, s = ws ++ lstrip s.
Proof.
  induction s as [|c s [ws IH]]; simpl.
  - by exists [].
  - destruct (isspace c).
    + exists (c :: ws). simpl. by f_equal.
    + by exists [].
Qed.

Lemma strip_infix (s : str) : exists a b, s = a ++ strip s ++ b.
Proof.
  destruct (lstrip_suffix s) as [a Ha].
  destruct (lstrip_suffix (rev (lstrip s))) as [b Hb].
  exists a, (rev b). unfold strip, rstrip. rewrite <- rev_app_distr, <- Hb.
  by rewrite rev_involutive.
Qed.

(** A word without white space that occurs in [s] occurs in [strip s]. *)
Lemma strip_keeps_word (pre w post : str) :
  w <> [] -> Forall (fun c => isspace c = false) w ->
  exists pre' post', strip (pre ++ w ++ post) = pre' ++ w ++ post'.
Proof.
  intros Hne Hw. unfold strip.
  destruct w as [|c w]; [done|]. clear Hne.
  apply Forall_cons in Hw as [Hc Hw].
  destruct (lstrip_keeps pre c (w ++ post) Hc) as [pre' Hl].
  change ((c :: w) ++ post) with (c :: w ++ post). rewrite Hl.
  destruct (last (c :: w)) as [d|] eqn:Hlast.
  - apply last_Some in Hlast as [w' Hw'].
    assert (isspace d = false) as Hd.
    { assert (d ∈ c :: w) as Hin by (rewrite Hw'; set_solver).
      apply elem_of_cons in Hin as [->|Hin]; [done|].
      by eapply (proj1 (Forall_forall _ _) Hw). }
    change (c :: w ++ post) with ((c :: w) ++ post). rewrite Hw'.
    replace (pre' ++ (w' ++ [d]) ++ post) with ((pre' ++ w') ++ d :: post)
      by (by rewrite <- !app_assoc).
    destruct (rstrip_keeps (pre' ++ w') d post Hd) as [post' ->].
    exists pre', post'. by rewrite <- !app_assoc.
  - by apply last_None in Hlast.
Qed.

(** *** [lower] *)

Lemma ascii_lower_lt (x : codepoint) : ascii_lower x < 128 <-> x < 128.
Proof.
  unfold ascii_lower.
  destruct ((65 <=? x) && (x <=? 90)) eqn:E; [|done].
  apply andb_true_iff in E as [_ E%N.leb_le]. lia.
Qed.

Lemma ascii_lower_not_space (x : codepoint) :
  isspace (ascii_lower x) = false -> isspace x = false.
Proof.
  unfold ascii_lower.
  destruct ((65 <=? x) && (x <=? 90)) eqn:E; [|done].
  apply andb_true_iff in E as [E1%N.leb_le E2%N.leb_le]. intros _.
  unfold isspace.
  repeat (apply orb_false_iff; split);
    try (apply andb_false_iff);
    rewrite ?N.leb_gt, ?N.eqb_neq; lia.
Qed.

Lemma same_ci_ascii (w n : str) :
  same_ci w n -> Forall (fun c => c < 128) n -> Forall (fun c => c < 128) w.
Proof.
  unfold same_ci. revert n. induction w as [|x w IH]; intros [|y n] E Hn;
    try done.
  injection E as E1 E2. apply Forall_cons in Hn as [Hy Hn].
  constructor; [|by eapply IH].
  apply ascii_lower_lt. rewrite E1. by apply ascii_lower_lt.
Qed.

Lemma same_ci_not_space (w n : str) :
  same_ci w n -> Forall (fun c => isspace (ascii_lower c) = false) n ->
  Forall (fun c => isspace c = false) w.
Proof.
  unfold same_ci. revert n. induction w as [|x w IH]; intros [|y n] E Hn;
    try done.
  injection E as E1 E2. apply Forall_cons in Hn as [Hy Hn].
  constructor; [|by eapply IH].
  apply ascii_lower_not_space. by rewrite E1.
Qed.

Section LowerFacts.
Context {table : UnicodeCase}.

Lemma lower_from_ascii_app (left w post : str) :
  Forall (fun c => c < 128) w ->
  lower_from left (w ++ post)
  = (ascii_lower <$> w) ++ lower_from (rev w ++ left) post.
Proof.
  intros Hw. revert left.
  induction Hw as [|c w Hc _ IH]; intros left; [done|].
  simpl. unfold lower_at. apply N.ltb_lt in Hc as ->. simpl.
  by rewrite IH, <- app_assoc.
Qed.

(** On a string of ASCII code points [lower] is [ascii_lower] on every
    code point, and does not look at the case table. *)
Lemma lower_ascii (s : str) :
  Forall (fun c => c < 128) s -> lower s = ascii_lower <$> s.
Proof.
  intros Hs. unfold lower.
  rewrite <- (app_nil_r s) at 1. rewrite lower_from_ascii_app by done.
  simpl. by rewrite app_nil_r.
Qed.

Lemma lower_from_app (left a b : str) :
  exists front, lower_from left (a ++ b)
                = front ++ lower_from (rev a ++ left) b.
Proof.
  revert left. induction a as [|c a IH]; intros left.
  - by exists [].
  - simpl. destruct (IH (c :: left)) as [front ->].
    exists (lower_at left c (a ++ b) ++ front).
    by rewrite <- !app_assoc.
Qed.

Context {sound : UnicodeCaseSound}.

(** Where an image shows a plain code point, the code point lowered was
    ASCII. *)
Lemma lower_at_plain (left : str) (c : codepoint) (right : str) (y : codepoint) :
  plain y -> y ∈ lower_at left c right ->
  c < 128 /\ lower_at left c right = [y] /\ ascii_lower c = y.
Proof.
  intros (Hy & Hi & Hk) Hin. unfold lower_at in *.
  destruct (c <? 128) eqn:E.
  - apply N.ltb_lt in E. apply list_elem_of_singleton in Hin as ->. done.
  - apply N.ltb_ge in E.
    destruct (tolower_full_ascii left c right y E Hin Hy); done.
Qed.

Lemma lower_at_nonempty (left : str) (c : codepoint) (right : str) :
  lower_at left c right <> [].
Proof.
  unfold lower_at. destruct (c <? 128) eqn:E; [done|].
  apply N.ltb_ge in E. by apply tolower_full_nonempty.
Qed.

Lemma lower_from_prefix_inv (n : str) :
  Forall plain n -> forall left r back,
  lower_from left r = n ++ back ->
  exists w post, r = w ++ post /\ ascii_lower <$> w = n.
Proof.
  induction 1 as [|y n Hy _ IH]; intros left r back E.
  - by exists [], r.
  - destruct r as [|c r]; [done|]. simpl in E.
    pose proof (lower_at_nonempty left c r) as Hne.
    destruct (lower_at left c r) as [|x img] eqn:Eimg; [done|].
    injection E as -> E.
    destruct (lower_at_plain left c r y Hy) as (_ & Himg & Hc).
    { rewrite Eimg. by left. }
    rewrite Eimg in Himg. injection Himg as ->. simpl in E.
    destruct (IH _ _ _ E) as (w & post & -> & Hw).
    exists (c :: w), post. by rewrite fmap_cons, Hc, Hw.
Qed.

Lemma lower_from_infix_inv (n : str) :
  Forall plain n -> forall s left front back,
  lower_from left s = front ++ n ++ back ->
  exists pre w post, s = pre ++ w ++ post /\ ascii_lower <$> w = n.
Proof.
  intros Hn. induction s as [|c s IH]; intros left front back E.
  - simpl in E. symmetry in E.
    apply app_eq_nil in E as [_ [-> _]%app_eq_nil]. by exists [], [], [].
  - destruct n as [|y n]; [by exists [], [], (c :: s)|].
    simpl in E. apply app_eq_inv in E as [(k & Hk & E)|(k & Hk & E)].
    + destruct k as [|x k].
      * rewrite app_nil_l in E. rewrite app_nil_r in Hk.
        destruct (IH (c :: left) [] back) as (pre & w & post & -> & Hw);
          [by symmetry|].
        by exists (c :: pre), w, post.
      * injection E as <- E. apply Forall_cons in Hn as [Hy Hn].
        destruct (lower_at_plain left c s y Hy) as (_ & Himg & Hc).
        { rewrite Hk. set_solver. }
        rewrite Himg in Hk. destruct front; [|by destruct front].
        injection Hk as <-.
        destruct (lower_from_prefix_inv n Hn (c :: left) s back)
          as (w & post & -> & Hw); [done|].
        exists [], (c :: w), post. by rewrite fmap_cons, Hc, Hw.
    + destruct (IH (c :: left) k back E) as (pre & w & post & -> & Hw).
      by exists (c :: pre), w, post.
Qed.

(** [needle in s.lower()], for a lower-case needle of plain code points,
    says that [s] holds the needle up to the case of ASCII letters. *)
Lemma str_in_lower (needle s : str) :
  Forall plain needle -> ascii_lower <$> needle = needle ->
  str_in needle (lower s) = true <-> contains_ci needle s.
Proof.
  intros Hn Hlow. rewrite str_in_spec. unfold contains, contains_ci, same_ci.
  rewrite Hlow. split.
  - intros (front & back & E).
    by apply (lower_from_infix_inv needle Hn s [] front back).
  - intros (pre & w & post & -> & Hw). unfold lower.
    destruct (lower_from_app [] pre (w ++ post)) as [front ->].
    exists front, (lower_from (rev w ++ rev pre ++ []) post).
    rewrite lower_from_ascii_app, Hw; [done|].
    apply (same_ci_ascii w needle); [by unfold same_ci; rewrite Hlow|].
    eapply Forall_impl; [exact Hn|]. by intros x [? _].
Qed.

End LowerFacts.

(** The sample table has the guaranteed properties. *)
Lemma sample_case_sound : @UnicodeCaseSound sample_case.
Proof.
  split; unfold tolower_full, sample_case; intros left c right.
  - intros _. by repeat case_match.
  - intros x Hc Hin Hx.
    repeat case_match;
      repeat (apply elem_of_cons in Hin as [->|Hin]);
      try (by apply elem_of_nil in Hin); lia.
Qed.

End PyStrFacts.

Import PyStrFacts.

(** ** Running a handler *)

Section Run.
Context {table : UnicodeCase}.

(** The shape all five handlers share: one call, then the trimmed text
    under [field], or whatever the [except] clause builds. *)
Lemma try_generate_run (field : string) (prompt : str)
    (on_error : Exception -> Body) (w : World) :
  try_except
    (response ← generate_content prompt;
     t ← get_text response;
     mret {[ field := strip t ]})
    (fun e => mret (on_error e)) w
  = (match attempt w prompt with
     | Return t => Return {[ field := strip t ]}
     | Raise e => Return (on_error e)
     end,
     {| gemini_model := gemini_model w; calls := calls w ++ [prompt] |}).
Proof.
  unfold try_except, mbind, M_bind, mret, M_ret, generate_content, get_text,
    attempt.
  destruct (gemini_model w (calls w) prompt) as [[[t|e]]|e]; done.
Qed.

Lemma app_run (r : Request) (w : World) :
  app r w
  = (match attempt w (prompt_of r) with
     | Return t => Return {[ success_field r := strip t ]}
     | Raise e => Return {[ "error"%string := error_text r e ]}
     end,
     {| gemini_model := gemini_model w;
        calls := calls w ++ [prompt_of r] |}).
Proof.
  destruct r; simpl;
    unfold generate_caption, generate_hashtags, generate_ideas,
      generate_script, generate_thumbnail_prompt;
    by rewrite try_generate_run.
Qed.

Lemma sent_app (r : Request) (w : World) : sent (app r) w = [prompt_of r].
Proof.
  unfold sent. rewrite app_run. simpl.
  by rewrite drop_app_length.
Qed.

End Run.

(** ** What [strip] removes *)

Lemma lstrip_decomp (s : str) :
  exists ws, s = ws ++ lstrip s /\ Forall (fun c => isspace c = true) ws.
Proof.
  induction s as [|c s (ws & IH & Hws)]; simpl.
  - by exists [].
  - destruct (isspace c) eqn:Hc.
    + exists (c :: ws). split; [simpl; by f_equal|by constructor].
    + by exists [].
Qed.

Lemma lstrip_head (s : str) (c : codepoint) :
  head (lstrip s) = Some c -> isspace c = false.
Proof.
  induction s as [|x s IH]; simpl; [done|].
  destruct (isspace x) eqn:Hx; [done|]. by intros [= <-].
Qed.

Lemma lstrip_blank (s : str) :
  lstrip s = [] <-> Forall (fun c => isspace c = true) s.
Proof.
  split.
  - intros E. destruct (lstrip_decomp s) as (ws & Hs & Hws).
    rewrite E, app_nil_r in Hs. by subst.
  - intros Hs. rewrite <- (app_nil_r s). by rewrite lstrip_spaces.
Qed.

Lemma rev_nil_inv (s : str) : rev s = [] -> s = [].
Proof.
  intros E. apply (f_equal (@rev N)) in E. by rewrite rev_involutive in E.
Qed.

Lemma last_rev (s : str) : last (rev s) = head s.
Proof.
  destruct s as [|c s]; [done|]. simpl. by rewrite last_snoc.
Qed.

Lemma rstrip_decomp (s : str) :
  exists ws, s = rstrip s ++ ws /\ Forall (fun c => isspace c = true) ws.
Proof.
  destruct (lstrip_decomp (rev s)) as (ws & E & Hws).
  exists (rev ws). split; [|by apply Forall_rev].
  unfold rstrip. rewrite <- rev_app_distr, <- E. by rewrite rev_involutive.
Qed.

(** [strip] takes white space, and nothing else, off the two ends. *)
Lemma strip_decomp (s : str) :
  exists a b, s = a ++ strip s ++ b /\
    Forall (fun c => isspace c = true) a /\
    Forall (fun c => isspace c = true) b.
Proof.
  destruct (lstrip_decomp s) as (a & Ha & Hwa).
  destruct (rstrip_decomp (lstrip s)) as (b & Hb & Hwb).
  exists a, b. unfold strip. by rewrite <- Hb, <- Ha.
Qed.

Lemma strip_blank (s : str) :
  strip s = [] <-> Forall (fun c => isspace c = true) s.
Proof.
  split.
  - intros E. destruct (strip_decomp s) as (a & b & Hs & Ha & Hb).
    rewrite E in Hs. subst s. simpl. by apply Forall_app.
  - intros Hs. unfold strip. by rewrite (proj2 (lstrip_blank s) Hs).
Qed.

Lemma strip_last (s : str) (d : codepoint) :
  last (strip s) = Some d -> isspace d = false.
Proof.
  unfold strip, rstrip. rewrite last_rev. apply lstrip_head.
Qed.

Lemma strip_head (s : str) (c : codepoint) :
  head (strip s) = Some c -> isspace c = false.
Proof.
  unfold strip. destruct (lstrip s) as [|x l] eqn:E; [done|].
  assert (isspace x = false) as Hx by (apply (lstrip_head s); by rewrite E).
  destruct (rstrip_keeps [] x l Hx) as [post' Hr]. simpl in Hr.
  rewrite Hr. by intros [= <-].
Qed.

Lemma strip_idemp (s : str) : strip (strip s) = strip s.
Proof.
  destruct (head (strip s)) as [c|] eqn:Hc.
  - destruct (last (strip s)) as [d|] eqn:Hd.
    + pose proof (strip_surrounded [] [] (strip s) c d) as E.
      rewrite app_nil_r in E. apply E;
        eauto using strip_head, strip_last.
    + apply last_None in Hd. by rewrite Hd.
  - destruct (strip s); [done|discriminate].
Qed.

(** ** Properties of the endpoints *)

(** C7. [GET /] returns the same fixed message body whatever the state of
    the collaborator, and leaves the world as it found it: no call is made
    to the collaborator. *)
Theorem root_fixed_and_silent (w : World) :
  root w
  = (Return {[ "message"%string :=
                 check_mark ++ lit " SnapBoost AI backend is running!" ]}, w)
  /\ sent root w = [].
Proof.
  split; [done|]. unfold sent. simpl. by rewrite drop_all.
Qed.

(** C4. Each of the five generation endpoints makes exactly one call to
    the collaborator per request, with the composed prompt; and when that
    call yields a text, the body returned holds, under the endpoint's own
    field, that text without its leading and trailing white space: the
    text is white space, then the value, then white space, and the value
    neither starts nor ends with white space. *)
Theorem one_call_trimmed_text {table : UnicodeCase} (r : Request) (w : World) :
  calls (app r w).2 = calls w ++ [prompt_of r] /\
  forall t, attempt w (prompt_of r) = Return t ->
    (app r w).1 = Return {[ success_field r := strip t ]} /\
    exists a b,
      t = a ++ strip t ++ b /\
      Forall (fun c => isspace c = true) a /\
      Forall (fun c => isspace c = true) b /\
      (forall c, head (strip t) = Some c -> isspace c = false) /\
      (forall d, last (strip t) = Some d -> isspace d = false).
Proof.
  rewrite app_run. simpl. split; [done|]. intros t ->. split; [done|].
  destruct (strip_decomp t) as (a & b & E & Ha & Hb).
  exists a, b. repeat split; try done.
  - apply strip_head.
  - apply strip_last.
Qed.

Lemma one_call_trimmed_text_witness :
  (app (table:=sample_case)
     (POST_generate_hashtags {| HashtagRequest.caption := lit "new shoes" |})
     (answering (lit "  #new #shoes ") [])).1
  = Return {[ "hashtags"%string := lit "#new #shoes" ]}.
Proof.
  destruct (one_call_trimmed_text (table:=sample_case)
              (POST_generate_hashtags
                 {| HashtagRequest.caption := lit "new shoes" |})
              (answering (lit "  #new #shoes ") [])) as [_ Hsuccess].
  destruct (Hsuccess (lit "  #new #shoes ")) as [Hbody _]; [reflexivity|].
  etrans; [exact Hbody|]. reflexivity.
Defined.

(** C5. Whatever failure the collaborator raises, the handler returns
    normally with a body that has an [error] key, so the status is 200; no
    exception leaves the handler; and the collaborator has been called
    once, not again. *)
Theorem failure_becomes_error_body {table : UnicodeCase}
    (r : Request) (w : World) (e : Exception) :
  attempt w (prompt_of r) = Raise e ->
  (exists msg, (app r w).1 = Return {[ "error"%string := msg ]}) /\
  status_code (app r w).1 = 200 /\
  (forall e', (app r w).1 <> Raise e') /\
  calls (app r w).2 = calls w ++ [prompt_of r].
Proof.
  intros Hfail. rewrite app_run, Hfail. simpl.
  split; [by eexists|]. done.
Qed.

Lemma failure_becomes_error_body_witness :
  status_code
    (app (table:=sample_case)
       (POST_generate_script
          {| ScriptInput.video_type := lit "reel"; ScriptInput.topic := lit "cats" |})
       (failing (lit "503 unavailable") [])).1 = 200.
Proof.
  apply (failure_becomes_error_body (table:=sample_case)
           (POST_generate_script
              {| ScriptInput.video_type := lit "reel"; ScriptInput.topic := lit "cats" |})
           (failing (lit "503 unavailable") [])
           {| str_of := lit "503 unavailable" |}).
  reflexivity.
Defined.

(** C8. Whatever the collaborator does, the body a generation endpoint
    returns is a dict with exactly one key and a string under it: the
    endpoint's success field or [error], never both.  The health endpoint
    returns its one [message] key. *)
Theorem body_has_one_key {table : UnicodeCase} (r : Request) (w : World) :
  (exists (body : Body) (v : str),
     (app r w).1 = Return body /\
     (body = {[ success_field r := v ]} \/ body = {[ "error"%string := v ]}) /\
     size body = 1%nat /\
     (body !! success_field r = None \/ body !! "error"%string = None)) /\
  (exists v : str, (root w).1 = Return {[ "message"%string := v ]}).
Proof.
  split; [|by eexists].
  rewrite app_run. simpl.
  destruct (attempt w (prompt_of r)) as [t|e]; eexists _, _;
    (split; [reflexivity|]).
  - split; [by left|]. split; [apply map_size_singleton|].
    right. apply lookup_singleton_ne. by destruct r.
  - split; [by right|]. split; [apply map_size_singleton|].
    left. apply lookup_singleton_ne. by destruct r.
Qed.

(** C1 as stated fails for [/generate-caption/]: with a collaborator whose
    call raises an exception saying [quota exceeded], the [error] string is
    not that message but the message behind a fixed prefix. *)
Lemma caption_error_not_verbatim :
  attempt (failing (lit "quota exceeded") [])
    (generate_caption_prompt (table:=sample_case)
       {| CaptionRequest.event := lit "sneaker launch";
          CaptionRequest.choice := lit "caption" |})
  = Raise {| str_of := lit "quota exceeded" |}
  /\ (generate_caption (table:=sample_case)
        {| CaptionRequest.event := lit "sneaker launch";
           CaptionRequest.choice := lit "caption" |}
        (failing (lit "quota exceeded") [])).1
     = Return {[ "error"%string :=
                   cross_mark ++ lit " Failed to generate caption. Reason: "
                     ++ lit "quota exceeded" ]}
  /\ (generate_caption (table:=sample_case)
        {| CaptionRequest.event := lit "sneaker launch";
           CaptionRequest.choice := lit "caption" |}
        (failing (lit "quota exceeded") [])).1
     <> Return {[ "error"%string := lit "quota exceeded" ]}.
Proof.
  split; [reflexivity|].
  pose proof (app_run (table:=sample_case)
                (POST_generate_caption
                   {| CaptionRequest.event := lit "sneaker launch";
                      CaptionRequest.choice := lit "caption" |})
                (failing (lit "quota exceeded") [])) as Hrun.
  simpl in Hrun. rewrite Hrun. simpl. split; [done|].
  intros E.
  apply (f_equal (fun o : outcome Body =>
                    match o with
                    | Return b => b !! "error"%string
                    | Raise _ => None
                    end)) in E.
  rewrite !lookup_singleton_eq in E. by vm_compute in E.
Qed.

(** C1, amended. When the collaborator fails with exception [e]:
    [/generate-hashtags/] and [/generate-thumbnail-prompt/] return
    [str(e)] itself as the [error] string; [/generate-caption/] and
    [/generate-ideas/] return their own fixed prefix followed by [str(e)];
    [/generate-script/] returns one fixed string, the same for every
    [e]. *)
Theorem error_string_by_endpoint {table : UnicodeCase}
    (w : World) (e : Exception) :
  (forall data, attempt w (generate_hashtags_prompt data) = Raise e ->
     (generate_hashtags data w).1 = Return {[ "error"%string := str_of e ]}) /\
  (forall data, attempt w (generate_thumbnail_prompt_prompt data) = Raise e ->
     (generate_thumbnail_prompt data w).1
     = Return {[ "error"%string := str_of e ]}) /\
  (forall request, attempt w (generate_caption_prompt request) = Raise e ->
     (generate_caption request w).1
     = Return {[ "error"%string :=
                   cross_mark ++ lit " Failed to generate caption. Reason: "
                     ++ str_of e ]}) /\
  (forall data, attempt w (generate_ideas_prompt data) = Raise e ->
     (generate_ideas data w).1
     = Return {[ "error"%string :=
                   cross_mark ++ lit " Failed to generate ideas. Reason: "
                     ++ str_of e ]}) /\
  (forall data, attempt w (generate_script_prompt data) = Raise e ->
     (generate_script data w).1
     = Return {[ "error"%string :=
                   cross_mark
                     ++ lit " Failed to generate script. Please try again later." ]}).
Proof.
  repeat split; intros x Hfail;
    unfold generate_caption, generate_hashtags, generate_ideas,
      generate_script, generate_thumbnail_prompt;
    by rewrite try_generate_run, Hfail.
Qed.

Lemma error_string_by_endpoint_witness :
  (generate_hashtags {| HashtagRequest.caption := lit "new shoes" |}
     (textless (lit "no valid part") [])).1
  = Return {[ "error"%string := lit "no valid part" ]}.
Proof.
  destruct (error_string_by_endpoint (table:=sample_case)
              (textless (lit "no valid part") [])
              {| str_of := lit "no valid part" |}) as (Hhashtags & _).
  apply Hhashtags. reflexivity.
Defined.

Lemma same_ci_head (v k : str) (y : codepoint) :
  same_ci v k -> head k = Some y ->
  exists x, head v = Some x /\ ascii_lower x = ascii_lower y.
Proof.
  unfold same_ci. destruct v as [|x v], k as [|y' k]; try done.
  intros E [= ->]. injection E as E _. by exists x.
Qed.

Lemma same_ci_last (v k : str) (y : codepoint) :
  same_ci v k -> last k = Some y ->
  exists x, last v = Some x /\ ascii_lower x = ascii_lower y.
Proof.
  unfold same_ci. intros E Hk.
  apply (f_equal last) in E. rewrite !fmap_last, Hk in E.
  destruct (last v) as [x|]; [|done]. injection E as E. by exists x.
Qed.

(** A keyword written in any case inside any white space is normalised to
    the keyword by [strip] and [lower]. *)
Lemma normalize_keyword {table : UnicodeCase}
    (keyword choice : str) (c d : codepoint) :
  Forall (fun x => x < 128) keyword ->
  ascii_lower <$> keyword = keyword ->
  head keyword = Some c -> last keyword = Some d ->
  isspace (ascii_lower c) = false -> isspace (ascii_lower d) = false ->
  choice_is keyword choice ->
  lower (strip choice) = keyword.
Proof.
  intros Hascii Hlow Hc Hd Hsc Hsd (ws1 & v & ws2 & -> & H1 & H2 & Hci).
  destruct (same_ci_head v keyword c Hci Hc) as (x & Hx & Ex).
  destruct (same_ci_last v keyword d Hci Hd) as (z & Hz & Ez).
  rewrite (strip_surrounded ws1 ws2 v x z); try done.
  - rewrite lower_ascii by (by eapply same_ci_ascii). by rewrite Hci.
  - apply ascii_lower_not_space. by rewrite Ex.
  - apply ascii_lower_not_space. by rewrite Ez.
Qed.

(** Side conditions on the literals of the source. *)
Ltac lit_forall :=
  match goal with
  | |- Forall _ (lit ?s) =>
      let l := eval vm_compute in (lit s) in
      change (lit s) with l;
      repeat (constructor; [first [reflexivity | unfold plain; lia]|]);
      constructor
  end.

Ltac lit_neq :=
  let E := fresh in intros E; vm_compute in E; discriminate E.

Lemma contains_app_r (needle s rest : str) :
  contains needle s -> contains needle (s ++ rest).
Proof.
  intros (pre & post & ->). exists pre, (post ++ rest).
  by rewrite <- !app_assoc.
Qed.

Lemma contains_app_l (s needle : str) : contains needle (s ++ needle).
Proof. exists s, []. by rewrite app_nil_r. Qed.

Lemma contains_lit (needle s : string) :
  str_in (lit needle) (lit s) = true -> contains (lit needle) (lit s).
Proof. apply str_in_spec. Qed.

(** C2. [generate_caption] picks its template by the trimmed, lower-cased
    [choice]: [caption], [idea] and [launch plan], in any case and inside
    any white space, give the caption, the ideas and the launch-plan
    prompt; every other normalised value gives the fallback prompt, which
    holds the event text.  The prompt so built is the one sent.  For
    [{event: sneaker launch, choice: Caption}] the prompt sent is
    [Write a short, catchy social media caption for the launch of: sneaker launch]. *)
Theorem caption_template_selection {table : UnicodeCase}
    (request : CaptionRequest.t) :
  let event := CaptionRequest.event request in
  let choice := CaptionRequest.choice request in
  let prompt := generate_caption_prompt request in
  (choice_is (lit "caption") choice ->
     prompt = lit "Write a short, catchy social media caption for the launch of: "
                ++ event
     /\ contains (lit "catchy social media caption") prompt) /\
  (choice_is (lit "idea") choice ->
     prompt = lit "Give me creative marketing ideas for the launch of: "
                ++ event
     /\ contains (lit "creative marketing ideas") prompt) /\
  (choice_is (lit "launch plan") choice ->
     prompt = lit "Create a simple and effective launch plan for: " ++ event
     /\ contains (lit "launch plan") prompt) /\
  (lower (strip choice) <> lit "caption" ->
   lower (strip choice) <> lit "idea" ->
   lower (strip choice) <> lit "launch plan" ->
     prompt = lit "Tell me something helpful related to: " ++ event
     /\ contains event prompt) /\
  (forall w, sent (generate_caption request) w = [prompt]) /\
  (forall w,
     sent (generate_caption
             {| CaptionRequest.event := lit "sneaker launch";
                CaptionRequest.choice := lit "Caption" |}) w
     = [lit "Write a short, catchy social media caption for the launch of: sneaker launch"]).
Proof.
  intros event choice prompt. subst prompt. unfold generate_caption_prompt.
  fold event choice.
  assert (forall k c d,
            Forall (fun x => x < 128) k -> ascii_lower <$> k = k ->
            head k = Some c -> last k = Some d ->
            isspace (ascii_lower c) = false ->
            isspace (ascii_lower d) = false ->
            choice_is k choice -> lower (strip choice) = k) as Hnorm.
  { intros k c d. apply normalize_keyword. }
  repeat apply conj.
  - intros Hk.
    rewrite (Hnorm (lit "caption") 99 110); [|lit_forall|done..].
    rewrite decide_True by done. split; [done|].
    apply contains_app_r, contains_lit. reflexivity.
  - intros Hk.
    rewrite (Hnorm (lit "idea") 105 97); [|lit_forall|done..].
    rewrite decide_False by lit_neq. rewrite decide_True by done.
    split; [done|]. apply contains_app_r, contains_lit. reflexivity.
  - intros Hk.
    rewrite (Hnorm (lit "launch plan") 108 110); [|lit_forall|done..].
    rewrite !decide_False by lit_neq. rewrite decide_True by done.
    split; [done|]. apply contains_app_r, contains_lit. reflexivity.
  - intros N1 N2 N3. rewrite !decide_False by done.
    split; [done|]. apply contains_app_l.
  - intros w. apply (sent_app (POST_generate_caption request)).
  - intros w.
    etrans; [apply (sent_app (POST_generate_caption _))|].
    cbn [prompt_of]. vm_compute. reflexivity.
Qed.

Lemma caption_template_selection_witness :
  generate_caption_prompt (table:=sample_case)
    {| CaptionRequest.event := lit "sneaker launch";
       CaptionRequest.choice := lit "  LAUNCH Plan " |}
  = lit "Create a simple and effective launch plan for: " ++ lit "sneaker launch"
  /\ generate_caption_prompt (table:=sample_case)
       {| CaptionRequest.event := lit "sneaker launch";
          CaptionRequest.choice := lit "giveaway" |}
     = lit "Tell me something helpful related to: " ++ lit "sneaker launch".
Proof.
  split.
  - apply (caption_template_selection (table:=sample_case)
             {| CaptionRequest.event := lit "sneaker launch";
                CaptionRequest.choice := lit "  LAUNCH Plan " |}).
    exists (lit "  "), (lit "LAUNCH Plan"), (lit " ").
    repeat split; try reflexivity; lit_forall.
  - apply (caption_template_selection (table:=sample_case)
             {| CaptionRequest.event := lit "sneaker launch";
                CaptionRequest.choice := lit "giveaway" |});
      simpl; lit_neq.
Defined.

(** White space around a string neither hides nor adds an occurrence of a
    word without white space. *)
Lemma contains_ci_strip (needle s : str) :
  needle <> [] ->
  Forall (fun c => isspace (ascii_lower c) = false) needle ->
  contains_ci needle (strip s) <-> contains_ci needle s.
Proof.
  intros Hne Hns. split.
  - intros (pre & w & post & E & Hw).
    destruct (strip_infix s) as (a & b & Hs).
    exists (a ++ pre), w, (post ++ b). split; [|done].
    rewrite Hs at 1. rewrite E. by rewrite <- !app_assoc.
  - intros (pre & w & post & -> & Hw).
    destruct (strip_keeps_word pre w post) as (pre' & post' & E).
    + intros ->. unfold same_ci in Hw. by destruct needle.
    + by eapply same_ci_not_space.
    + by exists pre', w, post'.
Qed.

Lemma short_long_differ (video_type topic topic' : str) :
  short_form video_type topic <> long_form topic'.
Proof.
  unfold short_form, long_form. intros E.
  apply (f_equal (take 20)) in E. vm_compute in E. discriminate E.
Qed.

(** The test of [generate_script], read on the raw field. *)
Lemma script_test_spec {table : UnicodeCase} {sound : UnicodeCaseSound}
    (video_type : str) :
  str_in (lit "short") (lower (strip video_type))
  || str_in (lit "reel") (lower (strip video_type)) = true
  <-> contains_ci (lit "short") video_type
      \/ contains_ci (lit "reel") video_type.
Proof.
  rewrite orb_true_iff.
  rewrite !str_in_lower; [|lit_forall|reflexivity|lit_forall|reflexivity].
  rewrite !contains_ci_strip; [done|lit_neq|lit_forall|lit_neq|lit_forall].
Qed.

(** C3. [generate_script] builds the short-form prompt exactly when
    [video_type] holds [short] or [reel] in some mix of upper and lower
    case, and the long-form prompt for every other [video_type]. *)
Theorem script_template_selection
    {table : UnicodeCase} {sound : UnicodeCaseSound} (data : ScriptInput.t) :
  let video_type := ScriptInput.video_type data in
  let topic := ScriptInput.topic data in
  let short_or_reel :=
    contains_ci (lit "short") video_type
    \/ contains_ci (lit "reel") video_type in
  (short_or_reel <->
     generate_script_prompt data
     = short_form (lower (strip video_type)) (strip topic)) /\
  (~ short_or_reel <->
     generate_script_prompt data = long_form (strip topic)).
Proof.
  intros video_type topic short_or_reel. subst short_or_reel.
  rewrite <- script_test_spec. unfold generate_script_prompt.
  fold video_type topic.
  destruct (str_in (lit "short") (lower (strip video_type))
            || str_in (lit "reel") (lower (strip video_type))) eqn:E.
  - split; [done|]. split; [done|].
    intros E'. by apply short_long_differ in E'.
  - split; [|done]. split; [done|].
    intros E'. symmetry in E'. by apply short_long_differ in E'.
Qed.

Lemma script_template_selection_witness :
  generate_script_prompt (table:=sample_case)
    {| ScriptInput.video_type := lit " YouTube SHORTS";
       ScriptInput.topic := lit "cats" |}
  = short_form
      (lower (table:=sample_case) (strip (lit " YouTube SHORTS")))
      (strip (lit "cats"))
  /\ generate_script_prompt (table:=sample_case)
       {| ScriptInput.video_type := lit "podcast";
          ScriptInput.topic := lit "cats" |}
     = long_form (strip (lit "cats")).
Proof.
  split.
  - apply (script_template_selection (table:=sample_case)
             (sound:=sample_case_sound)
             {| ScriptInput.video_type := lit " YouTube SHORTS";
                ScriptInput.topic := lit "cats" |}).
    left. exists (lit " YouTube "), (lit "SHORT"), (lit "S"). by split.
  - apply (script_template_selection (table:=sample_case)
             (sound:=sample_case_sound)
             {| ScriptInput.video_type := lit "podcast";
                ScriptInput.topic := lit "cats" |}).
    apply (proj1 (not_iff_compat
             (script_test_spec (table:=sample_case)
                (sound:=sample_case_sound) (lit "podcast")))).
    by vm_compute.
Defined.

(** C9 as stated fails in its long-form part: for
    [{video_type: video, topic: cats}] the long-form branch is taken and
    the prompt holds the [video_type] value, because the template itself
    says [YouTube video]; for [{video_type: YouTube video, topic: cats}]
    the prompt holds the raw field value in the same way. *)
Lemma long_form_holds_video_type :
  (generate_script_prompt (table:=sample_case)
     {| ScriptInput.video_type := lit "video";
        ScriptInput.topic := lit "cats" |}
   = long_form (lit "cats")
   /\ str_in (lit "video")
        (generate_script_prompt (table:=sample_case)
           {| ScriptInput.video_type := lit "video";
              ScriptInput.topic := lit "cats" |}) = true) /\
  (generate_script_prompt (table:=sample_case)
     {| ScriptInput.video_type := lit "YouTube video";
        ScriptInput.topic := lit "cats" |}
   = long_form (lit "cats")
   /\ str_in (lit "YouTube video")
        (generate_script_prompt (table:=sample_case)
           {| ScriptInput.video_type := lit "YouTube video";
              ScriptInput.topic := lit "cats" |}) = true).
Proof. repeat split; reflexivity. Qed.

(** C9, amended. In [generate_script] the short-form prompt interpolates
    the trimmed, lower-cased [video_type] and the trimmed [topic], not the
    raw fields; the long-form prompt interpolates the trimmed [topic]
    only: [video_type] is not interpolated there and decides nothing but
    the branch, so requests that take the long-form branch with the same
    [topic] get the same prompt whatever their [video_type]. *)
Theorem script_interpolates_normalized {table : UnicodeCase}
    (data : ScriptInput.t) :
  let video_type := lower (strip (ScriptInput.video_type data)) in
  let topic := strip (ScriptInput.topic data) in
  let test (vt : str) := str_in (lit "short") vt || str_in (lit "reel") vt in
  (test video_type = true ->
     generate_script_prompt data = short_form video_type topic) /\
  (test video_type = false ->
     generate_script_prompt data = long_form topic /\
     forall data',
       test (lower (strip (ScriptInput.video_type data'))) = false ->
       ScriptInput.topic data' = ScriptInput.topic data ->
       generate_script_prompt data' = generate_script_prompt data) /\
  (generate_script_prompt
     {| ScriptInput.video_type := lit " Shorts ";
        ScriptInput.topic := lit " Cats " |}
   = short_form (lit "shorts") (lit "Cats")
   /\ short_form (lit "shorts") (lit "Cats")
      <> short_form (lit " Shorts ") (lit " Cats ")).
Proof.
  intros video_type topic test. subst test. cbv beta.
  repeat apply conj.
  - intros E. unfold generate_script_prompt. fold video_type topic.
    by rewrite E.
  - intros E. unfold generate_script_prompt. fold video_type topic.
    rewrite E. split; [done|].
    intros data' E' Htopic. by rewrite E', Htopic.
  - by vm_compute.
  - intros E. vm_compute in E. discriminate E.
Qed.

Lemma script_interpolates_normalized_witness :
  generate_script_prompt (table:=sample_case)
    {| ScriptInput.video_type := lit "Instagram REEL ";
       ScriptInput.topic := lit "  cats" |}
  = short_form (lit "instagram reel") (lit "cats")
  /\ generate_script_prompt (table:=sample_case)
       {| ScriptInput.video_type := lit "Tutorial";
          ScriptInput.topic := lit "  cats" |}
     = long_form (lit "cats").
Proof.
  pose proof (script_interpolates_normalized (table:=sample_case)
                {| ScriptInput.video_type := lit "Instagram REEL ";
                   ScriptInput.topic := lit "  cats" |}) as (Hshort & _ & _).
  pose proof (script_interpolates_normalized (table:=sample_case)
                {| ScriptInput.video_type := lit "Tutorial";
                   ScriptInput.topic := lit "  cats" |}) as (_ & Hlong & _).
  split.
  - etrans; [apply Hshort; reflexivity|]. reflexivity.
  - etrans; [apply Hlong; reflexivity|]. reflexivity.
Defined.

(** C6 as stated fails for [/generate-script/]: for
    [{video_type: Reel, topic: _cats_}] (the topic with a space on either
    side) the prompt is not the short-form template with the two fields
    substituted as they are; neither field value even occurs in it. *)
Lemma script_fields_not_verbatim :
  generate_script_prompt (table:=sample_case)
    {| ScriptInput.video_type := lit "Reel";
       ScriptInput.topic := lit " cats " |}
  <> short_form (lit "Reel") (lit " cats ")
  /\ str_in (lit "Reel")
       (generate_script_prompt (table:=sample_case)
          {| ScriptInput.video_type := lit "Reel";
             ScriptInput.topic := lit " cats " |}) = false
  /\ str_in (lit " cats ")
       (generate_script_prompt (table:=sample_case)
          {| ScriptInput.video_type := lit "Reel";
             ScriptInput.topic := lit " cats " |}) = false.
Proof.
  split; [|split; reflexivity].
  intros E. vm_compute in E. discriminate E.
Qed.

(** C6, amended. Every prompt is a fixed template with holes, and what
    fills a hole is never escaped or cut.  For [/generate-hashtags/],
    [/generate-ideas/] and [/generate-thumbnail-prompt/] the holes are
    filled with the request fields as they are; [/generate-caption/]
    appends [event] as it is to one of four fixed openings and does not
    interpolate [choice]; [/generate-script/] fills its holes with the
    trimmed [topic] and, in the short form only, with the trimmed,
    lower-cased [video_type]. *)
Theorem fields_fill_fixed_templates {table : UnicodeCase} :
  (exists openings : list str,
     length openings = 4%nat /\
     forall request, exists opening,
       opening ∈ openings /\
       generate_caption_prompt request
       = opening ++ CaptionRequest.event request) /\
  (exists a b : str, forall data,
     generate_hashtags_prompt data
     = a ++ HashtagRequest.caption data ++ b) /\
  (exists a b c d : str, forall data,
     generate_ideas_prompt data
     = a ++ IdeaRequest.platform data ++ b ++ IdeaRequest.niche data
         ++ c ++ IdeaRequest.audience_type data ++ d) /\
  (exists a b c d : str, forall data,
     generate_thumbnail_prompt_prompt data
     = a ++ ThumbnailPromptRequest.platform data
         ++ b ++ ThumbnailPromptRequest.topic data
         ++ c ++ ThumbnailPromptRequest.style data ++ d) /\
  (exists a b c d e : str, forall data,
     generate_script_prompt data
     = a ++ lower (strip (ScriptInput.video_type data))
         ++ b ++ strip (ScriptInput.topic data) ++ c
     \/ generate_script_prompt data
        = d ++ strip (ScriptInput.topic data) ++ e).
Proof.
  repeat apply conj.
  - exists [lit "Write a short, catchy social media caption for the launch of: ";
            lit "Give me creative marketing ideas for the launch of: ";
            lit "Create a simple and effective launch plan for: ";
            lit "Tell me something helpful related to: "].
    split; [done|]. intros request. unfold generate_caption_prompt.
    repeat case_decide; eexists; (split; [|reflexivity]); set_solver.
  - exists (nl ++ lit "    Generate a list of high-engagement social media hashtags based on the following caption. "
            ++ nl ++ lit "    Avoid spaces and return only the hashtags in Python list format."
            ++ nl ++ lit "    Caption: "),
      (nl ++ lit "    ").
    intros data. unfold generate_hashtags_prompt.
    by rewrite <- !app_assoc.
  - exists (nl ++ lit "    You are a creative AI assistant for content creators. Generate 10 unique and viral content ideas for "),
      (lit " creators " ++ nl ++ lit "    in the " ++ dquote),
      (dquote ++ lit " niche. Each idea should be engaging, suitable for the "),
      (lit ", and relevant to current trends."
       ++ nl ++ lit "    Output the ideas as a numbered list."
       ++ nl ++ lit "    ").
    intros data. unfold generate_ideas_prompt.
    by rewrite <- !app_assoc.
  - exists (lit "Generate a detailed and visually rich prompt for an AI image generator to create a thumbnail for a "),
      (lit " video." ++ nl ++ lit "Topic: " ++ dquote),
      (dquote ++ nl ++ lit "Style: "),
      (nl ++ lit "Focus on visual details like colors, elements, facial expressions, mood, typography, and composition."
       ++ nl ++ lit "Avoid text in the prompt itself unless required.").
    intros data. unfold generate_thumbnail_prompt_prompt.
    by rewrite <- !app_assoc.
  - exists (nl ++ lit "        Generate an engaging script for a 1-minute "),
      (lit " about " ++ dquote),
      (dquote ++ lit "."
       ++ nl ++ lit "        The script should have an attention-grabbing hook in the first few seconds,"
       ++ nl ++ lit "        use a casual and high-energy tone, include visual/action suggestions,"
       ++ nl ++ lit "        and end with a strong call to action."
       ++ nl ++ lit "        "),
      (nl ++ lit "        Generate a detailed script for a YouTube video about "
       ++ dquote),
      (dquote ++ lit "."
       ++ nl ++ lit "        The script should last about 10 minutes and include:"
       ++ nl ++ lit "        - Hook in the intro"
       ++ nl ++ lit "        - Structured explanation in sections"
       ++ nl ++ lit "        - Engaging storytelling tone"
       ++ nl ++ lit "        - Visual suggestions for each section"
       ++ nl ++ lit "        - Call to action at the end"
       ++ nl ++ lit "        Format the response as a script with timestamps."
       ++ nl ++ lit "        ").
    intros data. unfold generate_script_prompt, short_form, long_form.
    case_match; [left|right]; by rewrite <- !app_assoc.
Qed.

(** C10. The prompt an endpoint sends is a function of the request fields
    alone: two requests with the same field values, handled in any two
    states of the process (any collaborator, any history of earlier
    calls), send the same prompt, code point for code point. *)
Theorem prompt_deterministic {table : UnicodeCase} (w1 w2 : World) :
  (forall a b,
     CaptionRequest.event a = CaptionRequest.event b ->
     CaptionRequest.choice a = CaptionRequest.choice b ->
     sent (generate_caption a) w1 = sent (generate_caption b) w2) /\
  (forall a b,
     HashtagRequest.caption a = HashtagRequest.caption b ->
     sent (generate_hashtags a) w1 = sent (generate_hashtags b) w2) /\
  (forall a b,
     IdeaRequest.platform a = IdeaRequest.platform b ->
     IdeaRequest.niche a = IdeaRequest.niche b ->
     IdeaRequest.audience_type a = IdeaRequest.audience_type b ->
     sent (generate_ideas a) w1 = sent (generate_ideas b) w2) /\
  (forall a b,
     ScriptInput.video_type a = ScriptInput.video_type b ->
     ScriptInput.topic a = ScriptInput.topic b ->
     sent (generate_script a) w1 = sent (generate_script b) w2) /\
  (forall a b,
     ThumbnailPromptRequest.topic a = ThumbnailPromptRequest.topic b ->
     ThumbnailPromptRequest.style a = ThumbnailPromptRequest.style b ->
     ThumbnailPromptRequest.platform a = ThumbnailPromptRequest.platform b ->
     sent (generate_thumbnail_prompt a) w1
     = sent (generate_thumbnail_prompt b) w2) /\
  (forall r, sent (app r) w1 = [prompt_of r] /\ sent (app r) w2 = [prompt_of r]).
Proof.
  repeat apply conj.
  - intros [] [] ; simpl; intros -> ->.
    exact (eq_trans (sent_app (POST_generate_caption _) w1)
             (eq_sym (sent_app (POST_generate_caption _) w2))).
  - intros [] []; simpl; intros ->.
    exact (eq_trans (sent_app (POST_generate_hashtags _) w1)
             (eq_sym (sent_app (POST_generate_hashtags _) w2))).
  - intros [] []; simpl; intros -> -> ->.
    exact (eq_trans (sent_app (POST_generate_ideas _) w1)
             (eq_sym (sent_app (POST_generate_ideas _) w2))).
  - intros [] []; simpl; intros -> ->.
    exact (eq_trans (sent_app (POST_generate_script _) w1)
             (eq_sym (sent_app (POST_generate_script _) w2))).
  - intros [] []; simpl; intros -> -> ->.
    exact (eq_trans (sent_app (POST_generate_thumbnail_prompt _) w1)
             (eq_sym (sent_app (POST_generate_thumbnail_prompt _) w2))).
  - intros r. by rewrite !sent_app.
Qed.

Lemma prompt_deterministic_witness :
  sent (generate_script (table:=sample_case)
          {| ScriptInput.video_type := lit "reel"; ScriptInput.topic := lit "cats" |})
       (answering (lit "first draft") [])
  = sent (generate_script (table:=sample_case)
            {| ScriptInput.video_type := lit "reel"; ScriptInput.topic := lit "cats" |})
         (failing (lit "quota exceeded") [lit "an earlier prompt"]).
Proof.
  destruct (prompt_deterministic (table:=sample_case)
              (answering (lit "first draft") [])
              (failing (lit "quota exceeded") [lit "an earlier prompt"]))
    as (_ & _ & _ & Hscript & _).
  apply Hscript; reflexivity.
Defined.

(** ** Further properties of the endpoints *)

(** X1. The body tells success from failure: it has the [error] key
    exactly when the call or the reading of its [text] raised, and the
    endpoint's own key exactly when a text was obtained. *)
Theorem error_key_iff_failure {table : UnicodeCase} (r : Request) (w : World) :
  exists body : Body,
    (app r w).1 = Return body /\
    (is_Some (body !! "error"%string)
     <-> exists e, attempt w (prompt_of r) = Raise e) /\
    (is_Some (body !! success_field r)
     <-> exists t, attempt w (prompt_of r) = Return t).
Proof.
  rewrite app_run. simpl.
  assert (success_field r <> "error"%string) as Hne by (by destruct r).
  destruct (attempt w (prompt_of r)) as [t|e]; eexists; (split; [done|]).
  - rewrite lookup_singleton_eq, lookup_singleton_ne by done. split.
    + split; [by intros [? ?]|by intros [? ?]].
    + split; [by exists t|done].
  - rewrite lookup_singleton_eq, lookup_singleton_ne by done. split.
    + split; [by exists e|done].
    + split; [by intros [? ?]|by intros [? ?]].
Qed.

(** X2. On success the value returned is the generated text without the
    white space at its two ends and with everything between kept: it
    neither starts nor ends with white space, and trimming it again
    changes nothing. *)
Theorem success_value_trimmed {table : UnicodeCase}
    (r : Request) (w : World) (t : str) :
  attempt w (prompt_of r) = Return t ->
  exists v a b,
    (app r w).1 = Return {[ success_field r := v ]} /\
    t = a ++ v ++ b /\
    Forall (fun c => isspace c = true) a /\
    Forall (fun c => isspace c = true) b /\
    (forall c, head v = Some c -> isspace c = false) /\
    (forall d, last v = Some d -> isspace d = false) /\
    strip v = v.
Proof.
  intros Ht. rewrite app_run, Ht. simpl.
  destruct (strip_decomp t) as (a & b & E & Ha & Hb).
  exists (strip t), a, b.
  repeat split; try done.
  - apply strip_head.
  - apply strip_last.
  - apply strip_idemp.
Qed.

Lemma success_value_trimmed_witness :
  exists v a b,
    (app (table:=sample_case)
       (POST_generate_ideas
          {| IdeaRequest.platform := lit "YouTube";
             IdeaRequest.niche := lit "cooking";
             IdeaRequest.audience_type := lit "beginners" |})
       (answering (lit " 1. Knife skills  2. Eggs ") [])).1
    = Return {[ "ideas"%string := v ]} /\
    lit " 1. Knife skills  2. Eggs " = a ++ v ++ b /\
    Forall (fun c => isspace c = true) a /\
    Forall (fun c => isspace c = true) b /\
    (forall c, head v = Some c -> isspace c = false) /\
    (forall d, last v = Some d -> isspace d = false) /\
    strip v = v.
Proof.
  apply (success_value_trimmed (table:=sample_case)
           (POST_generate_ideas
              {| IdeaRequest.platform := lit "YouTube";
                 IdeaRequest.niche := lit "cooking";
                 IdeaRequest.audience_type := lit "beginners" |})
           (answering (lit " 1. Knife skills  2. Eggs ") [])).
  reflexivity.
Defined.

(** X3. A generated text of nothing but white space (the empty text
    included) is still a success: the endpoint returns its own key with
    the empty string, and the empty string is returned for no other
    text. *)
Theorem blank_text_is_empty_success {table : UnicodeCase}
    (r : Request) (w : World) (t : str) :
  attempt w (prompt_of r) = Return t ->
  (Forall (fun c => isspace c = true) t
   <-> (app r w).1 = Return {[ success_field r := [] ]}).
Proof.
  intros Ht. rewrite app_run, Ht. simpl. rewrite <- strip_blank. split.
  - by intros ->.
  - intros E.
    apply (f_equal (fun o : outcome Body =>
                      match o with
                      | Return b => b !! success_field r
                      | Raise _ => None
                      end)) in E.
    rewrite !lookup_singleton_eq in E. by injection E.
Qed.

Lemma blank_text_is_empty_success_witness :
  (app (table:=sample_case)
     (POST_generate_hashtags {| HashtagRequest.caption := lit "new shoes" |})
     (answering [32; 10; 0xA0] [])).1
  = Return {[ "hashtags"%string := [] ]}.
Proof.
  apply (blank_text_is_empty_success (table:=sample_case)
           (POST_generate_hashtags {| HashtagRequest.caption := lit "new shoes" |})
           (answering [32; 10; 0xA0] []) [32; 10; 0xA0]).
  - reflexivity.
  - repeat constructor.
Defined.

(** X4. An empty [choice], or one of white space only, is not rejected:
    it selects the fallback prompt. *)
Theorem blank_choice_falls_back {table : UnicodeCase}
    (request : CaptionRequest.t) :
  Forall (fun c => isspace c = true) (CaptionRequest.choice request) ->
  generate_caption_prompt request
  = lit "Tell me something helpful related to: "
      ++ CaptionRequest.event request.
Proof.
  intros Hblank. unfold generate_caption_prompt.
  rewrite (proj2 (strip_blank _) Hblank).
  by rewrite !decide_False by lit_neq.
Qed.

Lemma blank_choice_falls_back_witness :
  generate_caption_prompt (table:=sample_case)
    {| CaptionRequest.event := lit "sneaker launch";
       CaptionRequest.choice := [] |}
  = lit "Tell me something helpful related to: " ++ lit "sneaker launch".
Proof.
  apply (blank_choice_falls_back (table:=sample_case)
           {| CaptionRequest.event := lit "sneaker launch";
              CaptionRequest.choice := [] |}).
  constructor.
Defined.

(** X5. An empty or all-white-space [video_type] selects the long form;
    and when the [topic] is empty or all white space too, the prompt is
    the long form about the empty string: no field is validated. *)
Theorem blank_script_fields {table : UnicodeCase} (data : ScriptInput.t) :
  Forall (fun c => isspace c = true) (ScriptInput.video_type data) ->
  generate_script_prompt data = long_form (strip (ScriptInput.topic data)) /\
  (Forall (fun c => isspace c = true) (ScriptInput.topic data) ->
   generate_script_prompt data = long_form []).
Proof.
  intros Hblank. unfold generate_script_prompt.
  rewrite (proj2 (strip_blank _) Hblank). simpl.
  split; [done|]. intros Htopic. by rewrite (proj2 (strip_blank _) Htopic).
Qed.

Lemma blank_script_fields_witness :
  generate_script_prompt (table:=sample_case)
    {| ScriptInput.video_type := lit "  "; ScriptInput.topic := [] |}
  = long_form [].
Proof.
  destruct (blank_script_fields (table:=sample_case)
              {| ScriptInput.video_type := lit "  "; ScriptInput.topic := [] |})
    as [_ Hboth].
  - repeat constructor.
  - apply Hboth. constructor.
Defined.

(** For a [choice] of ASCII code points, normalising gives the keyword
    only when the choice is the keyword inside white space, up to case. *)
Lemma normalized_ascii_iff {table : UnicodeCase}
    (keyword choice : str) (c d : codepoint) :
  Forall (fun x => x < 128) choice ->
  Forall (fun x => x < 128) keyword ->
  ascii_lower <$> keyword = keyword ->
  head keyword = Some c -> last keyword = Some d ->
  isspace (ascii_lower c) = false -> isspace (ascii_lower d) = false ->
  lower (strip choice) = keyword <-> choice_is keyword choice.
Proof.
  intros Hchoice Hk Hlow Hc Hd Hsc Hsd. split.
  - intros E. destruct (strip_decomp choice) as (a & b & Hs & Ha & Hb).
    exists a, (strip choice), b. repeat split; try done.
    unfold same_ci. rewrite Hlow, <- E. symmetry. apply lower_ascii.
    rewrite Hs in Hchoice.
    by apply Forall_app in Hchoice as [_ [? _]%Forall_app].
  - by apply (normalize_keyword keyword choice c d).
Qed.

Ltac openings_differ :=
  let E := fresh in
  intros E; apply (f_equal head) in E; vm_compute in E; discriminate E.

Ltac keywords_clash :=
  match goal with
  | H1 : ?n = lit _, H2 : ?n = lit _ |- _ =>
      rewrite H1 in H2; vm_compute in H2; discriminate H2
  end.

(** X6. For a [choice] of ASCII code points the selection is exact in
    both directions: each of the three keyword prompts is built only for
    its keyword (in any case, inside any white space), and the fallback
    prompt for every other [choice]. *)
Theorem caption_selection_ascii_iff {table : UnicodeCase}
    (request : CaptionRequest.t) :
  let event := CaptionRequest.event request in
  let choice := CaptionRequest.choice request in
  let prompt := generate_caption_prompt request in
  Forall (fun c => c < 128) choice ->
  (choice_is (lit "caption") choice <->
     prompt = lit "Write a short, catchy social media caption for the launch of: "
                ++ event) /\
  (choice_is (lit "idea") choice <->
     prompt = lit "Give me creative marketing ideas for the launch of: "
                ++ event) /\
  (choice_is (lit "launch plan") choice <->
     prompt = lit "Create a simple and effective launch plan for: " ++ event) /\
  (~ (choice_is (lit "caption") choice \/ choice_is (lit "idea") choice
      \/ choice_is (lit "launch plan") choice) <->
     prompt = lit "Tell me something helpful related to: " ++ event).
Proof.
  intros event choice prompt Hascii. subst prompt.
  rewrite <- (normalized_ascii_iff (lit "caption") choice 99 110);
    [|done|lit_forall|done..].
  rewrite <- (normalized_ascii_iff (lit "idea") choice 105 97);
    [|done|lit_forall|done..].
  rewrite <- (normalized_ascii_iff (lit "launch plan") choice 108 110);
    [|done|lit_forall|done..].
  unfold generate_caption_prompt. fold event choice.
  generalize (lower (strip choice)). intros n.
  repeat case_decide; repeat split;
    try done; try (intros; keywords_clash); try openings_differ;
    try tauto.
  all: intros [?|[?|?]]; try done; keywords_clash.
Qed.

Lemma caption_selection_ascii_iff_witness :
  ~ (choice_is (lit "caption") (lit "captions")
     \/ choice_is (lit "idea") (lit "captions")
     \/ choice_is (lit "launch plan") (lit "captions")).
Proof.
  apply (caption_selection_ascii_iff (table:=sample_case)
           {| CaptionRequest.event := lit "sneaker launch";
              CaptionRequest.choice := lit "captions" |}).
  - simpl. lit_forall.
  - reflexivity.
Defined.

(** X7. The prompts with a single hole keep the field apart: two caption
    requests that send the same prompt have the same [event], and two
    hashtag requests that send the same prompt are the same request. *)
Theorem single_hole_prompts_injective {table : UnicodeCase} :
  (forall a b,
     generate_caption_prompt a = generate_caption_prompt b ->
     CaptionRequest.event a = CaptionRequest.event b) /\
  (forall a b,
     generate_hashtags_prompt a = generate_hashtags_prompt b -> a = b).
Proof.
  split.
  - intros a b E. unfold generate_caption_prompt in E.
    repeat case_decide;
      first [ by apply app_inv_head in E
            | exfalso; revert E; openings_differ ].
  - intros [ca] [cb] E. unfold generate_hashtags_prompt in E.
    cbn [HashtagRequest.caption] in E.
    repeat (apply app_inv_head in E). apply app_inv_tail in E. by subst.
Qed.

Lemma single_hole_prompts_injective_witness :
  CaptionRequest.event
    {| CaptionRequest.event := lit "sneaker launch";
       CaptionRequest.choice := lit "Caption" |}
  = CaptionRequest.event
      {| CaptionRequest.event := lit "sneaker launch";
         CaptionRequest.choice := lit " caption " |}.
Proof.
  destruct (single_hole_prompts_injective (table:=sample_case)) as [Hcaption _].
  apply Hcaption. reflexivity.
Defined.

(** X8. Field values are not escaped, so the prompts with several holes
    do not keep the fields apart: in [/generate-ideas/] text can move from
    the end of [platform] to the start of [niche], and in
    [/generate-thumbnail-prompt/] from [platform] to [topic], across the
    template text between them, and leave the prompt the same. *)
Theorem unescaped_fields_collide (p q n rest : str) :
  let between_ideas :=
    lit " creators " ++ nl ++ lit "    in the " ++ dquote in
  let between_thumbnail :=
    lit " video." ++ nl ++ lit "Topic: " ++ dquote in
  (generate_ideas_prompt
     {| IdeaRequest.platform := p ++ between_ideas ++ q;
        IdeaRequest.niche := n;
        IdeaRequest.audience_type := rest |}
   = generate_ideas_prompt
       {| IdeaRequest.platform := p;
          IdeaRequest.niche := q ++ between_ideas ++ n;
          IdeaRequest.audience_type := rest |}
   /\ p ++ between_ideas ++ q <> p) /\
  (generate_thumbnail_prompt_prompt
     {| ThumbnailPromptRequest.platform := p ++ between_thumbnail ++ q;
        ThumbnailPromptRequest.topic := n;
        ThumbnailPromptRequest.style := rest |}
   = generate_thumbnail_prompt_prompt
       {| ThumbnailPromptRequest.platform := p;
          ThumbnailPromptRequest.topic := q ++ between_thumbnail ++ n;
          ThumbnailPromptRequest.style := rest |}
   /\ p ++ between_thumbnail ++ q <> p).
Proof.
  intros between_ideas between_thumbnail.
  subst between_ideas between_thumbnail. split; split.
  - unfold generate_ideas_prompt. simpl. by rewrite <- !app_assoc.
  - intros E. apply (f_equal length) in E.
    rewrite !length_app in E. simpl in E. lia.
  - unfold generate_thumbnail_prompt_prompt. simpl. by rewrite <- !app_assoc.
  - intros E. apply (f_equal length) in E.
    rewrite !length_app in E. simpl in E. lia.
Qed.

(** X9. The [error] string of [/generate-caption/], [/generate-ideas/]
    and [/generate-script/] is never empty; that of [/generate-hashtags/]
    and [/generate-thumbnail-prompt/] is empty exactly when the exception
    has an empty message. *)
Theorem error_string_empty_iff {table : UnicodeCase}
    (r : Request) (w : World) (e : Exception) :
  attempt w (prompt_of r) = Raise e ->
  exists msg,
    (app r w).1 = Return {[ "error"%string := msg ]} /\
    (msg = [] <->
       (success_field r = "hashtags"%string
        \/ success_field r = "prompt"%string)
       /\ str_of e = []).
Proof.
  intros Hfail. rewrite app_run, Hfail. simpl.
  eexists. split; [done|].
  destruct r; simpl; split; try done;
    try (by intros [[?|?] ?]); try (intros ?; split; [by auto|done]).
Qed.

Lemma error_string_empty_iff_witness :
  exists msg,
    (app (table:=sample_case)
       (POST_generate_thumbnail_prompt
          {| ThumbnailPromptRequest.topic := lit "cats";
             ThumbnailPromptRequest.style := lit "bold";
             ThumbnailPromptRequest.platform := lit "YouTube" |})
       (failing [] [])).1
    = Return {[ "error"%string := msg ]} /\
    (msg = [] <->
       ("prompt"%string = "hashtags"%string
        \/ "prompt"%string = "prompt"%string)
       /\ @nil N = []).
Proof.
  apply (error_string_empty_iff (table:=sample_case)
           (POST_generate_thumbnail_prompt
              {| ThumbnailPromptRequest.topic := lit "cats";
                 ThumbnailPromptRequest.style := lit "bold";
                 ThumbnailPromptRequest.platform := lit "YouTube" |})
           (failing [] []) {| str_of := [] |}).
  reflexivity.
Defined.

(** X10. Requests handled one after the other are isolated: every one of
    them gets a body, whatever the collaborator did for the earlier ones;
    the collaborator is called once per request, in the order of the
    requests; and the shared model handle is never replaced. *)
Theorem serve_all_log {table : UnicodeCase} (rs : list Request) (w : World) :
  exists bodies,
    (serve_all rs w).1 = Return bodies /\
    length bodies = length rs /\
    calls (serve_all rs w).2 = calls w ++ (prompt_of <$> rs) /\
    gemini_model (serve_all rs w).2 = gemini_model w.
Proof.
  revert w. induction rs as [|r rs IH]; intros w.
  - exists []. simpl. by rewrite app_nil_r.
  - cbn [serve_all]. unfold mbind, M_bind. rewrite app_run.
    set (w' := {| gemini_model := gemini_model w;
                  calls := calls w ++ [prompt_of r] |}).
    destruct (IH w') as (bodies & Hres & Hlen & Hcalls & Hmodel).
    destruct (attempt w (prompt_of r)) as [t|e];
      destruct (serve_all rs w') as [[bs|e'] w''] eqn:Erun;
      simpl in *; try done;
      injection Hres as ->;
      (eexists; split; [done|]);
      (split; [by rewrite <- Hlen|]);
      (split; [by rewrite Hcalls, <- app_assoc|done]).
Qed.
